(** * The [manipulate] plugin of FlexGet: field evaluation and job grouping

    A shallow embedding of [flexget/plugins/modify/manipulate.py].

    - Python values that an entry field can hold are [value]: [None] or a
      [str].  A character is one [ascii], standing for a code point below 256.
    - An entry is a dictionary from field names to values: [gmap string value].
    - A rule body (the YAML mapping under a destination field) is the record
      [field_config]; an item of the configuration list is a Python dict from
      destination fields to rule bodies, kept in insertion order as an
      association list.
    - [process] mutates the entry in place, logs, and may raise: the model
      threads the entry, the [modified] flag and the emitted log records
      through every step and returns them together with the exception, if any.
      [log.debug] lines are not modelled; [log.warning] and [log.verbose] are.
    - Python's [re] module is outside the plugin.  The evaluator is written
      against the interface [Re]; [MiniRe] is an executable engine for a
      fragment of the pattern syntax, used to run the evaluator. *)

From Stdlib Require Import ZArith Ascii String List Bool Lia DecimalString.
From stdpp Require Import base option strings gmap.

Open Scope string_scope.
Open Scope list_scope.

(** ** Python values and string helpers *)

Inductive value :=
| VNone
| VStr (s : string).

#[global] Instance value_eq_dec : EqDecision value.
Proof. solve_decision. Defined.

Abbreviation entry := (gmap string value).

(** Truth value of a field value: [None] and the empty string are false. *)
Definition truthy (v : value) : bool :=
  match v with
  | VNone => false
  | VStr "" => false
  | VStr _ => true
  end.

(** [str(v)], as the [%s] conversion prints a field value. *)
Definition py_str (v : value) : string :=
  match v with
  | VNone => "None"
  | VStr s => s
  end.

(** [str.isspace] on one character (code points below 256). *)
Definition py_isspace (c : ascii) : bool :=
  let n := nat_of_ascii c in
  (((9 <=? n) && (n <=? 13)) || ((28 <=? n) && (n <=? 32))
   || (n =? 133) || (n =? 160))%nat.

Fixpoint lstrip (s : string) : string :=
  match s with
  | String c s' => if py_isspace c then lstrip s' else s
  | EmptyString => EmptyString
  end.

Fixpoint rstrip (s : string) : string :=
  match s with
  | String c s' =>
      match rstrip s' with
      | EmptyString => if py_isspace c then EmptyString else String c EmptyString
      | t => String c t
      end
  | EmptyString => EmptyString
  end.

(** [s.strip()] *)
Definition strip (s : string) : string := rstrip (lstrip s).

(** [sep.join(l)] *)
Definition join (sep : string) (l : list string) : string := String.concat sep l.

(** ['%d' % n] *)
Definition py_int (n : nat) : string := NilEmpty.string_of_uint (Nat.to_uint n).

(** ** Exceptions, log records *)

Inductive exn :=
| KeyError (key : string)
| TypeError
| ReError (msg : string).

Inductive res (A : Type) :=
| Ok (a : A)
| Raise (e : exn).
Arguments Ok {A} a.
Arguments Raise {A} e.

Inductive log_record :=
| LogWarning (msg : string)
| LogVerbose (msg : string).

(** ** Dictionary operations on an entry *)

(** [entry.get(key)] *)
Definition entry_get (e : entry) (key : string) : value :=
  default VNone (e !! key).

(** [key in entry] *)
Definition entry_contains (e : entry) (key : string) : bool :=
  match e !! key with
  | Some _ => true
  | None => false
  end.

(** [entry[key]] *)
Definition entry_getitem (e : entry) (key : string) : res value :=
  match e !! key with
  | Some v => Ok v
  | None => Raise (KeyError key)
  end.

(** ** Configuration *)

Inductive phase_name :=
| Ph_metainfo
| Ph_filter
| Ph_modify.

#[global] Instance phase_name_eq_dec : EqDecision phase_name.
Proof. solve_decision. Defined.

Record replace_config := {
  r_regexp : string;
  r_format : string
}.

(** The keys a rule body may carry; [None] is an absent key. *)
Record field_config := {
  c_phase : option phase_name;
  c_from : option string;
  c_extract : option string;
  c_separator : option string;
  c_remove : option bool;
  c_replace : option replace_config
}.

(** One item of the configuration list: [item.items()] in insertion order. *)
Abbreviation item := (list (string * field_config)).

(** The rule body with no key at all. *)
Definition empty_config : field_config :=
  {| c_phase := None; c_from := None; c_extract := None;
     c_separator := None; c_remove := None; c_replace := None |}.

(** ** The interface to [re] *)

Definition re_I : Z := 2.
Definition re_U : Z := 32.

(** [re_search pattern string flags] is [re.search(pattern, string, flags)]:
    [Ok None] when nothing matches, otherwise [match.groups()], where a group
    that took no part in the match is [None].
    [re_sub pattern flags repl string] is
    [re.compile(pattern, flags=flags).sub(repl, string)]. *)
Class Re := {
  re_search : string -> string -> Z -> res (option (list (option string)));
  re_sub : string -> Z -> string -> string -> res string
}.

(** ** [Manipulate.process] *)

Record state := {
  s_entry : entry;
  s_modified : bool;
  s_log : list log_record
}.

Definition log_to (r : log_record) (s : state) : state :=
  {| s_entry := s_entry s; s_modified := s_modified s; s_log := s_log s ++ [r] |}.

(** What one block of the loop body hands to the next: the current
    [field_value], a [continue] after a warning, or an exception. *)
Inductive flow :=
| Value (v : value)
| Skipped (msg : string)
| Failed (e : exn).

Section Process.
Context `{engine : Re}.

(** [x for x in match.groups() if x is not None] *)
Definition present_groups (groups : list (option string)) : list string :=
  omap id groups.

(** The [if 'extract' in config:] block. *)
Definition extract_step (config : field_config) (from_field : string)
    (field_value : value) : flow :=
  match c_extract config with
  | None => Value field_value
  | Some pattern =>
      if negb (truthy field_value) then
        Skipped ("Cannot extract, field `" +:+ from_field +:+ "` is not present")
      else
        match field_value with
        | VNone => Failed TypeError
        | VStr text =>
            match re_search pattern text (Z.lor re_I re_U) with
            | Raise e => Failed e
            | Ok None => Value field_value
            | Ok (Some groups) =>
                Value (VStr (strip (join (default " " (c_separator config))
                                         (present_groups groups))))
            end
        end
  end.

(** The [if 'replace' in config:] block. *)
Definition replace_step (config : field_config) (from_field : string)
    (field_value : value) : flow :=
  match c_replace config with
  | None => Value field_value
  | Some replace_config =>
      if negb (truthy field_value) then
        Skipped ("Cannot replace, field `" +:+ from_field +:+ "` is not present")
      else
        match field_value with
        | VNone => Failed TypeError
        | VStr text =>
            match re_sub (r_regexp replace_config) (Z.lor re_I re_U)
                         (r_format replace_config) text with
            | Raise e => Failed e
            | Ok text' => Value (VStr (strip text'))
            end
        end
  end.

(** [from_field != field or entry[field] != field_value] *)
Definition changed (e : entry) (field from_field : string)
    (field_value : value) : res bool :=
  if bool_decide (from_field ≠ field) then Ok true
  else
    match entry_getitem e field with
    | Raise x => Raise x
    | Ok old => Ok (bool_decide (old ≠ field_value))
    end.

(** The last block of the loop body: change detection, then the
    unconditional [entry[field] = field_value]. *)
Definition assign_step (s : state) (field from_field : string)
    (field_value : value) : res state :=
  match changed (s_entry s) field from_field field_value with
  | Raise x => Raise x
  | Ok c =>
      let s1 :=
        if c then
          {| s_entry := s_entry s; s_modified := true;
             s_log := s_log s ++
               [LogVerbose ("Field `" +:+ field +:+ "` is now `"
                            +:+ py_str field_value +:+ "`")] |}
        else s in
      Ok {| s_entry := <[field := field_value]> (s_entry s1);
            s_modified := s_modified s1; s_log := s_log s1 |}
  end.

(** The [if config.get('remove'):] block, up to its [continue]. *)
Definition remove_step (s : state) (field : string) : state :=
  if entry_contains (s_entry s) field then
    {| s_entry := delete field (s_entry s); s_modified := true;
       s_log := s_log s |}
  else s.

(** The body of [for field, config in item.items():]. *)
Definition process_field (s : state) (field : string) (config : field_config)
    : res state :=
  let from_field := default field (c_from config) in
  let field_value := entry_get (s_entry s) from_field in
  if default false (c_remove config) then Ok (remove_step s field)
  else
    match extract_step config from_field field_value with
    | Failed e => Raise e
    | Skipped msg => Ok (log_to (LogWarning msg) s)
    | Value field_value =>
        match replace_step config from_field field_value with
        | Failed e => Raise e
        | Skipped msg => Ok (log_to (LogWarning msg) s)
        | Value field_value => assign_step s field from_field field_value
        end
    end.

(** [for field, config in item.items():]; an exception leaves the loop with
    the state reached so far. *)
Fixpoint process_item (s : state) (fields : item) : state * option exn :=
  match fields with
  | [] => (s, None)
  | (field, config) :: rest =>
      match process_field s field config with
      | Ok s' => process_item s' rest
      | Raise e => (s, Some e)
      end
  end.

(** [for item in jobs:] *)
Fixpoint process_jobs (s : state) (jobs : list item) : state * option exn :=
  match jobs with
  | [] => (s, None)
  | fields :: rest =>
      match process_item s fields with
      | (s', None) => process_jobs s' rest
      | (s', Some e) => (s', Some e)
      end
  end.

(** What a call of [process] leaves behind: the entry as mutated, the log
    records emitted, and either the returned [modified] or the exception. *)
Record process_result := {
  p_entry : entry;
  p_log : list log_record;
  p_return : res bool
}.

Definition process (e : entry) (jobs : list item) : process_result :=
  let '(s, x) :=
    process_jobs {| s_entry := e; s_modified := false; s_log := [] |} jobs in
  {| p_entry := s_entry s; p_log := s_log s;
     p_return := match x with
                 | None => Ok (s_modified s)
                 | Some e => Raise e
                 end |}.

End Process.

(** ** [Manipulate.on_task_start] and the phase handlers *)

(** [self.phase_jobs]: the dictionary with the three keys ['filter'],
    ['metainfo'] and ['modify']. *)
Record phase_jobs := {
  jobs_filter : list item;
  jobs_metainfo : list item;
  jobs_modify : list item
}.

(** [self.phase_jobs[phase]] *)
Definition jobs_for (pj : phase_jobs) (phase : phase_name) : list item :=
  match phase with
  | Ph_filter => jobs_filter pj
  | Ph_metainfo => jobs_metainfo pj
  | Ph_modify => jobs_modify pj
  end.

(** [self.phase_jobs[phase].append(it)] *)
Definition append_job (phase : phase_name) (it : item) (pj : phase_jobs)
    : phase_jobs :=
  match phase with
  | Ph_filter =>
      {| jobs_filter := jobs_filter pj ++ [it];
         jobs_metainfo := jobs_metainfo pj; jobs_modify := jobs_modify pj |}
  | Ph_metainfo =>
      {| jobs_filter := jobs_filter pj;
         jobs_metainfo := jobs_metainfo pj ++ [it]; jobs_modify := jobs_modify pj |}
  | Ph_modify =>
      {| jobs_filter := jobs_filter pj;
         jobs_metainfo := jobs_metainfo pj; jobs_modify := jobs_modify pj ++ [it] |}
  end.

(** The inner loop [for item_config in item.values():]: the phase is read
    from each rule body, and what is appended is the whole item. *)
Definition add_item (pj : phase_jobs) (it : item) : phase_jobs :=
  fold_left
    (fun pj item_config =>
       let phase := default Ph_metainfo (c_phase item_config) in
       append_job phase it pj)
    (map snd it) pj.

Definition on_task_start (config : list item) : phase_jobs :=
  fold_left add_item config
    {| jobs_filter := []; jobs_metainfo := []; jobs_modify := [] |}.

Record task := {
  entries : list entry;
  rejected : list entry
}.

(** What a phase handler leaves behind. *)
Record handler_result := {
  h_entries : list entry;
  h_rejected : list entry;
  h_log : list log_record;
  h_raised : option exn
}.

Section Handlers.
Context `{engine : Re}.

(** [sum(self.process(entry, jobs) for entry in es)]: the entries as mutated,
    the log, and the sum or the exception that ended it. *)
Fixpoint process_all (jobs : list item) (es : list entry)
    : list entry * list log_record * res nat :=
  match es with
  | [] => ([], [], Ok 0)
  | e :: rest =>
      let r := process e jobs in
      match p_return r with
      | Raise x => (p_entry r :: rest, p_log r, Raise x)
      | Ok m =>
          let '(rest', log', n) := process_all jobs rest in
          (p_entry r :: rest', p_log r ++ log',
           match n with
           | Ok k => Ok ((if m then 1 else 0) + k)
           | Raise x => Raise x
           end)
      end
  end.

(** The common body of the three handlers; [with_rejected] tells whether
    [sum] runs over [task.entries + task.rejected] or over [task.entries]. *)
Definition run_jobs (jobs : list item) (t : task) (with_rejected : bool)
    : handler_result :=
  match jobs with
  | [] =>
      {| h_entries := entries t; h_rejected := rejected t;
         h_log := []; h_raised := None |}
  | _ =>
      let es := if with_rejected then entries t ++ rejected t else entries t in
      let '(es', log, modified) := process_all jobs es in
      let n := length (entries t) in
      {| h_entries := take n es';
         h_rejected := if with_rejected then drop n es' else rejected t;
         h_log :=
           match modified with
           | Ok k => log ++ [LogVerbose ("Modified " +:+ py_int k +:+ " entries.")]
           | Raise _ => log
           end;
         h_raised :=
           match modified with
           | Ok _ => None
           | Raise x => Some x
           end |}
  end.

Definition on_task_metainfo (pj : phase_jobs) (t : task) : handler_result :=
  run_jobs (jobs_for pj Ph_metainfo) t false.

Definition on_task_filter (pj : phase_jobs) (t : task) : handler_result :=
  run_jobs (jobs_for pj Ph_filter) t true.

Definition on_task_modify (pj : phase_jobs) (t : task) : handler_result :=
  run_jobs (jobs_for pj Ph_modify) t true.

End Handlers.

(** ** An executable engine for a fragment of [re]

    Patterns: literal characters, [.], the classes [\d] and [\s], an escaped
    punctuation character, capturing groups, [|], and one greedy [*], [+] or
    [?] after an atom (for [*] and [+], an atom that cannot match the empty
    text).  Templates: literal characters, [\\] and [\1] .. [\9].
    Anything else is reported as [ReError].  Matching is by backtracking,
    leftmost first, as [re] does; [IGNORECASE] folds the letters below code
    point 256. *)
Module MiniRe.

Inductive regex :=
| Lit (c : ascii)
| AnyChar
| Digit
| Space
| Eps
| Seq (a b : regex)
| Alt (a b : regex)
| Star (a : regex)
| Group (n : nat) (a : regex).

Definition lower (c : ascii) : ascii :=
  let n := nat_of_ascii c in
  if (((65 <=? n) && (n <=? 90))
      || ((192 <=? n) && (n <=? 222) && negb (n =? 215)))%nat
  then ascii_of_nat (n + 32) else c.

Definition char_eq (icase : bool) (a b : ascii) : bool :=
  if icase then Ascii.eqb (lower a) (lower b) else Ascii.eqb a b.

Definition is_digit (c : ascii) : bool :=
  let n := nat_of_ascii c in ((48 <=? n) && (n <=? 57))%nat.

Definition is_alnum (c : ascii) : bool :=
  let n := nat_of_ascii c in
  (((48 <=? n) && (n <=? 57)) || ((65 <=? n) && (n <=? 90))
   || ((97 <=? n) && (n <=? 122)))%nat.

(** The text captured so far, newest first. *)
Abbreviation caps := (list (nat * list ascii)).

Fixpoint cap_lookup (c : caps) (n : nat) : option (list ascii) :=
  match c with
  | [] => None
  | (m, t) :: c' => if (m =? n)%nat then Some t else cap_lookup c' n
  end.

Abbreviation answer := (option (list ascii * caps)).

(** [rmatch icase r s c k]: match [r] at the front of [s], then hand what is
    left to [k]; a [None] from [k] makes the matcher try its next choice. *)
Fixpoint rmatch (icase : bool) (r : regex) (s : list ascii) (c : caps)
    (k : list ascii -> caps -> answer) : answer :=
  match r with
  | Lit a =>
      match s with
      | x :: s' => if char_eq icase a x then k s' c else None
      | [] => None
      end
  | AnyChar =>
      match s with
      | x :: s' => if (nat_of_ascii x =? 10)%nat then None else k s' c
      | [] => None
      end
  | Digit =>
      match s with
      | x :: s' => if is_digit x then k s' c else None
      | [] => None
      end
  | Space =>
      match s with
      | x :: s' => if py_isspace x then k s' c else None
      | [] => None
      end
  | Eps => k s c
  | Seq a b => rmatch icase a s c (fun s' c' => rmatch icase b s' c' k)
  | Alt a b =>
      match rmatch icase a s c k with
      | Some x => Some x
      | None => rmatch icase b s c k
      end
  | Star a =>
      (fix loop (n : nat) (s : list ascii) (c : caps) : answer :=
         match n with
         | O => k s c
         | S n' =>
             match rmatch icase a s c
                     (fun s' c' =>
                        if (length s' <? length s)%nat then loop n' s' c'
                        else None) with
             | Some x => Some x
             | None => k s c
             end
         end) (length s) s c
  | Group n a =>
      rmatch icase a s c
        (fun s' c' => k s' ((n, take (length s - length s') s) :: c'))
  end.

(** Leftmost match in [s]: the text skipped before it, the text left after
    it and the captures.  With [must_advance] an empty match at the very
    start of [s] is refused. *)
Fixpoint find (icase : bool) (r : regex) (s : list ascii) (must_advance : bool)
    {struct s} : option (list ascii * list ascii * caps) :=
  match rmatch icase r s []
          (fun s' c =>
             if must_advance && (length s' =? length s)%nat then None
             else Some (s', c)) with
  | Some (s', c) => Some ([], s', c)
  | None =>
      match s with
      | [] => None
      | x :: t =>
          match find icase r t false with
          | Some (pre, s', c) => Some (x :: pre, s', c)
          | None => None
          end
      end
  end.

(** *** Parsing a pattern *)

Definition is_special (c : ascii) : bool :=
  existsb (Ascii.eqb c) (list_ascii_of_string "|()*+?[]{}^$\.").

(** Whether the expression can match the empty text. *)
Fixpoint nullable (r : regex) : bool :=
  match r with
  | Lit _ | AnyChar | Digit | Space => false
  | Eps | Star _ => true
  | Seq a b => nullable a && nullable b
  | Alt a b => nullable a || nullable b
  | Group _ a => nullable a
  end.

(** One quantifier after an atom; a second one, and a repetition of an atom
    that can match the empty text, are outside the fragment. *)
Definition quantified (r : regex) (s : list ascii)
    : option (regex * list ascii) :=
  let after (q : regex) (s' : list ascii) :=
    match s' with
    | x :: _ =>
        if existsb (Ascii.eqb x) (list_ascii_of_string "*+?{") then None
        else Some (q, s')
    | [] => Some (q, s')
    end in
  match s with
  | "*"%char :: s' => if nullable r then None else after (Star r) s'
  | "+"%char :: s' => if nullable r then None else after (Seq r (Star r)) s'
  | "?"%char :: s' => after (Alt r Eps) s'
  | "{"%char :: _ => None
  | _ => Some (r, s)
  end.

(** [ng] counts the groups opened so far. *)
Fixpoint parse_alt (fuel : nat) (s : list ascii) (ng : nat)
    : option (regex * list ascii * nat) :=
  match fuel with
  | O => None
  | S f =>
      match parse_seq f s ng with
      | Some (a, "|"%char :: s1, ng1) =>
          match parse_alt f s1 ng1 with
          | Some (b, s2, ng2) => Some (Alt a b, s2, ng2)
          | None => None
          end
      | other => other
      end
  end
with parse_seq (fuel : nat) (s : list ascii) (ng : nat)
    : option (regex * list ascii * nat) :=
  match fuel with
  | O => None
  | S f =>
      match s with
      | [] => Some (Eps, s, ng)
      | "|"%char :: _ => Some (Eps, s, ng)
      | ")"%char :: _ => Some (Eps, s, ng)
      | _ =>
          match parse_atom f s ng with
          | Some (a, s1, ng1) =>
              match quantified a s1 with
              | Some (a', s2) =>
                  match parse_seq f s2 ng1 with
                  | Some (b, s3, ng3) => Some (Seq a' b, s3, ng3)
                  | None => None
                  end
              | None => None
              end
          | None => None
          end
      end
  end
with parse_atom (fuel : nat) (s : list ascii) (ng : nat)
    : option (regex * list ascii * nat) :=
  match fuel with
  | O => None
  | S f =>
      match s with
      | "("%char :: "?"%char :: _ => None
      | "("%char :: s1 =>
          match parse_alt f s1 (S ng) with
          | Some (a, ")"%char :: s2, ng2) => Some (Group (S ng) a, s2, ng2)
          | _ => None
          end
      | "."%char :: s1 => Some (AnyChar, s1, ng)
      | "\"%char :: "d"%char :: s1 => Some (Digit, s1, ng)
      | "\"%char :: "s"%char :: s1 => Some (Space, s1, ng)
      | "\"%char :: x :: s1 =>
          if is_alnum x then None else Some (Lit x, s1, ng)
      | x :: s1 => if is_special x then None else Some (Lit x, s1, ng)
      | [] => None
      end
  end.

(** A compiled pattern: the expression and its number of groups. *)
Definition compile (pattern : string) : option (regex * nat) :=
  let s := list_ascii_of_string pattern in
  match parse_alt (4 * (length s + 1)) s 0 with
  | Some (r, [], ng) => Some (r, ng)
  | _ => None
  end.

(** [match.groups()] *)
Definition groups_of (c : caps) (ng : nat) : list (option string) :=
  map (fun n => string_of_list_ascii <$> cap_lookup c n) (seq 1 ng).

Definition icase_of (flags : Z) : bool := Z.testbit flags 1.

Definition search (pattern text : string) (flags : Z)
    : res (option (list (option string))) :=
  match compile pattern with
  | None => Raise (ReError "pattern outside the fragment")
  | Some (r, ng) =>
      match find (icase_of flags) r (list_ascii_of_string text) false with
      | None => Ok None
      | Some (_, _, c) => Ok (Some (groups_of c ng))
      end
  end.

(** *** Substitution *)

Inductive piece :=
| Text (c : ascii)
| Ref (n : nat).

(** The template, checked against the number of groups of the pattern. *)
Fixpoint parse_template (ng : nat) (t : list ascii) : res (list piece) :=
  match t with
  | [] => Ok []
  | "\"%char :: x :: t' =>
      if Ascii.eqb x "\"%char then
        match parse_template ng t' with
        | Ok ps => Ok (Text x :: ps)
        | Raise e => Raise e
        end
      else if is_digit x && negb (Ascii.eqb x "0"%char) then
        match t' with
        | y :: _ =>
            if is_digit y then Raise (ReError "template outside the fragment")
            else
              let n := (nat_of_ascii x - 48)%nat in
              if (ng <? n)%nat then Raise (ReError "invalid group reference")
              else match parse_template ng t' with
                   | Ok ps => Ok (Ref n :: ps)
                   | Raise e => Raise e
                   end
        | [] =>
            let n := (nat_of_ascii x - 48)%nat in
            if (ng <? n)%nat then Raise (ReError "invalid group reference")
            else Ok [Ref n]
        end
      else Raise (ReError "template outside the fragment")
  | "\"%char :: [] => Raise (ReError "bad escape (end of pattern)")
  | x :: t' =>
      match parse_template ng t' with
      | Ok ps => Ok (Text x :: ps)
      | Raise e => Raise e
      end
  end.

(** The replacement text of one match; a group that took no part in the
    match expands to nothing. *)
Definition expand (ps : list piece) (c : caps) : list ascii :=
  flat_map
    (fun p =>
       match p with
       | Text x => [x]
       | Ref n => default [] (cap_lookup c n)
       end) ps.

(** Replace the matches from left to right; after an empty match the next
    one must advance. *)
Fixpoint sub_loop (fuel : nat) (icase : bool) (r : regex) (ps : list piece)
    (s : list ascii) (must_advance : bool) : list ascii :=
  match fuel with
  | O => s
  | S f =>
      match find icase r s must_advance with
      | None => s
      | Some (pre, rest, c) =>
          pre ++ expand ps c ++
          sub_loop f icase r ps rest
            (length rest =? length s - length pre)%nat
      end
  end.

Definition sub (pattern : string) (flags : Z) (repl text : string)
    : res string :=
  match compile pattern with
  | None => Raise (ReError "pattern outside the fragment")
  | Some (r, ng) =>
      match parse_template ng (list_ascii_of_string repl) with
      | Raise e => Raise e
      | Ok ps =>
          let s := list_ascii_of_string text in
          Ok (string_of_list_ascii
                (sub_loop (2 * length s + 2) (icase_of flags) r ps s false))
      end
  end.

#[global] Instance engine : Re := {| re_search := search; re_sub := sub |}.

End MiniRe.

(** The current value after the extract and the replace blocks, as the
    assignment block receives it. *)
Definition field_value_after `{engine : Re} (config : field_config) (from_field : string)
    (field_value : value) : flow :=
  match extract_step config from_field field_value with
  | Value v => replace_step config from_field v
  | other => other
  end.

(** ** Rules, entries and tasks used as examples *)

(** The phase of an item that declares exactly one destination field. *)
Definition single_phase (it : item) : option phase_name :=
  match it with
  | [(_, config)] => Some (default Ph_metainfo (c_phase config))
  | _ => None
  end.


Definition digits_of_title : field_config :=
  {| c_phase := None; c_from := None; c_extract := Some "(\d+)";
     c_separator := None; c_remove := None; c_replace := None |}.

Definition drop_url : field_config :=
  {| c_phase := None; c_from := None; c_extract := None;
     c_separator := None; c_remove := Some true; c_replace := None |}.

(** An item with two destination fields of different phases, and a task with
    one entry. *)
Definition two_phase_item : item :=
  [("title",
    {| c_phase := Some Ph_filter; c_from := None; c_extract := None;
       c_separator := None; c_remove := Some true; c_replace := None |});
   ("url",
    {| c_phase := Some Ph_metainfo; c_from := None; c_extract := None;
       c_separator := None; c_remove := None; c_replace := None |})].

Definition one_entry_task : task :=
  {| entries := [ <["title" := VStr "Some Show"]> {["url" := VStr "http://a/b"]} ];
     rejected := [] |}.

(** A rule body with every key set beside [remove: true]. *)
Definition remove_with_everything : field_config :=
  {| c_phase := None; c_from := Some "url"; c_extract := Some "(\d+)";
     c_separator := Some "-"; c_remove := Some true;
     c_replace := Some {| r_regexp := "\s+"; r_format := "\7" |} |}.

Definition remove_only : field_config :=
  {| c_phase := None; c_from := None; c_extract := None;
     c_separator := None; c_remove := Some true; c_replace := None |}.

Definition extract_only (pattern : string) : field_config :=
  {| c_phase := None; c_from := None; c_extract := Some pattern;
     c_separator := None; c_remove := None; c_replace := None |}.

Definition extract_with (pattern sep : string) : field_config :=
  {| c_phase := None; c_from := None; c_extract := Some pattern;
     c_separator := Some sep; c_remove := None; c_replace := None |}.

Definition replace_only (pattern format : string) : field_config :=
  {| c_phase := None; c_from := None; c_extract := None;
     c_separator := None; c_remove := None;
     c_replace := Some {| r_regexp := pattern; r_format := format |} |}.

(** A copy from [title] to [show_title] whose pattern matches without any
    group, followed by a replace. *)
Definition groupless_copy : field_config :=
  {| c_phase := None; c_from := Some "title"; c_extract := Some "b";
     c_separator := None; c_remove := None;
     c_replace := Some {| r_regexp := "x"; r_format := "y" |} |}.

Definition abc_entry : entry :=
  <["title" := VStr "abc"]> {["show_title" := VStr "old"]}.



(** ** Notions used to state the properties of the grouping and the handlers *)

(** The rule bodies of an item that are declared for [phase], the default
    being metainfo. *)
Definition bodies_for (phase : phase_name) (it : item)
    : list (string * field_config) :=
  List.filter
    (fun fc => bool_decide (default Ph_metainfo (c_phase (snd fc)) = phase)) it.

(** The destination fields that a job list names. *)
Definition destinations (jobs : list item) : list string :=
  flat_map (map fst) jobs.

(** The handler that the host calls for [phase]. *)
Definition on_task_phase `{engine : Re} (phase : phase_name) (pj : phase_jobs)
    (t : task) : handler_result :=
  match phase with
  | Ph_metainfo => on_task_metainfo pj t
  | Ph_filter => on_task_filter pj t
  | Ph_modify => on_task_modify pj t
  end.

(** The entries that the handler of [phase] hands to [process]. *)
Definition entries_seen (phase : phase_name) (t : task) : list entry :=
  match phase with
  | Ph_metainfo => entries t
  | Ph_filter | Ph_modify => entries t ++ rejected t
  end.

(** How many of the entries [process] reports as modified. *)
Definition modified_count `{engine : Re} (jobs : list item) (es : list entry)
    : nat :=
  length (List.filter
            (fun e => match p_return (process e jobs) with
                      | Ok true => true
                      | _ => false
                      end) es).

(** The state [s] seen from a caller that had already set [modified] to [m]
    and logged [l]. *)
Definition resume (m : bool) (l : list log_record) (s : state) : state :=
  {| s_entry := s_entry s; s_modified := m || s_modified s;
     s_log := l ++ s_log s |}.

(** A task with one entry and one rejected entry, and the rule body with no
    key on [title] as the only job. *)
Definition two_entry_task : task :=
  {| entries := [ <["title" := VStr "Some Show"]> {["url" := VStr "http://a/b"]} ];
     rejected := [ <["title" := VStr "Other Show"]> {["url" := VStr "http://c/d"]} ] |}.

Definition in_place_jobs : list item := [[("title", empty_config)]].

(** The first and the last character of a string, if any. *)
Definition first_char (s : string) : option ascii :=
  match s with
  | String c _ => Some c
  | EmptyString => None
  end.

Fixpoint last_char (s : string) : option ascii :=
  match s with
  | EmptyString => None
  | String c EmptyString => Some c
  | String _ s' => last_char s'
  end.

(** No white space at either end. *)
Definition trimmed (s : string) : Prop :=
  (∀ c, first_char s = Some c → py_isspace c = false)
  ∧ (∀ c, last_char s = Some c → py_isspace c = false).

(** * Properties of the evaluator *)

Section Evaluator.
Context `{engine : Re}.


Lemma truthy_nonempty (text : string) : text ≠ "" → truthy (VStr text) = true.
Proof. destruct text; [congruence | reflexivity]. Qed.

Lemma entry_get_absent (e : entry) (key : string) :
  e !! key = None → entry_get e key = VNone.
Proof. unfold entry_get. intros ->. reflexivity. Qed.


(** The loop body seen through [field_value_after]. *)
Lemma process_field_unfold (s : state) (field : string) (config : field_config) :
  default false (c_remove config) = false →
  process_field s field config =
    let from_field := default field (c_from config) in
    match field_value_after config from_field (entry_get (s_entry s) from_field) with
    | Failed e => Raise e
    | Skipped msg => Ok (log_to (LogWarning msg) s)
    | Value v => assign_step s field from_field v
    end.
Proof.
  intros Hrm. unfold process_field, field_value_after. rewrite Hrm. simpl.
  destruct (extract_step _ _ _); reflexivity.
Qed.


Lemma changed_rename (e : entry) (field from_field : string) (v : value) :
  from_field ≠ field → changed e field from_field v = Ok true.
Proof.
  intros Hne. unfold changed.
  rewrite bool_decide_eq_true_2; [reflexivity | exact Hne].
Qed.


Lemma changed_missing (e : entry) (field : string) (v : value) :
  e !! field = None → changed e field field v = Raise (KeyError field).
Proof.
  intros He. unfold changed, entry_getitem.
  rewrite bool_decide_eq_false_2 by (intros Hne; apply Hne; reflexivity).
  rewrite He. reflexivity.
Qed.

End Evaluator.

(** ** Missing source value (C1) *)



(** ** Exceptions out of the evaluator (C2) *)

(** C2, at the input where the code departs from it: a schema-valid rule body
    with no key at all, for a destination field that the entry does not have.
    The source field is the destination itself, so the change detection reads
    [entry[field]] and the call ends in [KeyError]; whatever the engine. *)
Theorem in_place_rule_on_absent_field_raises `{engine : Re} :
  process (∅ : entry) [[("title", empty_config)]]
  = {| p_entry := ∅; p_log := []; p_return := Raise (KeyError "title") |}.
Proof. reflexivity. Qed.

(** The same for every entry and field: the lookup is reached with the
    destination absent, and nothing was written before the exception. *)
Lemma in_place_rule_raises `{engine : Re} (e : entry) (field : string) :
  e !! field = None →
  process e [[(field, empty_config)]]
  = {| p_entry := e; p_log := []; p_return := Raise (KeyError field) |}.
Proof.
  intros He. unfold process. simpl.
  unfold process_field, assign_step. simpl.
  rewrite (changed_missing e field _ He). reflexivity.
Qed.

(** ** Grouping by phase (C3) *)

Lemma jobs_for_append (phase phase' : phase_name) (it : item) (pj : phase_jobs) :
  jobs_for (append_job phase' it pj) phase
  = jobs_for pj phase ++ (if bool_decide (phase' = phase) then [it] else []).
Proof.
  destruct phase, phase'; simpl; rewrite ?app_nil_r; reflexivity.
Qed.

(** On a configuration whose items all declare one destination field, the
    job list of a phase is the sub-list of the items of that phase, in the
    order of the configuration. *)
Lemma on_task_start_single_field (config : list item) (phase : phase_name) :
  Forall (fun it : item => length it = 1) config →
  jobs_for (on_task_start config) phase
  = List.filter (fun it => bool_decide (single_phase it = Some phase)) config.
Proof.
  intros Hone.
  assert (Hgen : ∀ pj,
    jobs_for (fold_left add_item config pj) phase
    = jobs_for pj phase
      ++ List.filter (fun it => bool_decide (single_phase it = Some phase)) config).
  { induction Hone as [| it config Hit Hrest IH]; intros pj0; simpl.
    - rewrite app_nil_r. reflexivity.
    - destruct it as [| [f c] [| ? ?]]; simpl in Hit; try discriminate.
      rewrite IH. unfold add_item. simpl. rewrite jobs_for_append.
      rewrite <- app_assoc. f_equal.
      destruct (decide (default Ph_metainfo (c_phase c) = phase)) as [Heq | Hne].
      + rewrite !bool_decide_eq_true_2; [reflexivity | congruence | exact Heq].
      + rewrite !bool_decide_eq_false_2; [reflexivity | congruence | exact Hne]. }
  unfold on_task_start. rewrite Hgen. destruct phase; reflexivity.
Qed.

(** An item is appended once for each of its fields, also when they share
    the phase: its rules then run twice in that phase. *)
Lemma item_listed_once_per_field :
  on_task_start [[("title", empty_config); ("url", empty_config)]]
  = {| jobs_filter := [];
       jobs_metainfo := [[("title", empty_config); ("url", empty_config)];
                         [("title", empty_config); ("url", empty_config)]];
       jobs_modify := [] |}.
Proof. reflexivity. Qed.

(** C3, at the input where the code departs from it: [on_task_start] appends
    the whole item once for each of its fields, so the item lands in the job
    lists of both phases, and the metainfo handler runs the rule body that is
    declared for the filter phase: the [title] field is removed there. *)
Theorem filter_rule_runs_in_metainfo `{engine : Re} :
  on_task_start [two_phase_item]
  = {| jobs_filter := [two_phase_item]; jobs_metainfo := [two_phase_item];
       jobs_modify := [] |}
  ∧ on_task_metainfo (on_task_start [two_phase_item]) one_entry_task
    = {| h_entries := [ {["url" := VStr "http://a/b"]} ];
         h_rejected := [];
         h_log := [LogVerbose "Modified 1 entries."];
         h_raised := None |}.
Proof. split; vm_compute; reflexivity. Qed.

(** ** Removing a field (C4) *)

Lemma process_field_remove `{engine : Re} (s : state) (field : string)
    (config : field_config) :
  c_remove config = Some true →
  process_field s field config = Ok (remove_step s field).
Proof. intros Hrm. unfold process_field. rewrite Hrm. reflexivity. Qed.

Lemma remove_step_entry (s : state) (field : string) :
  s_entry (remove_step s field) = delete field (s_entry s).
Proof.
  unfold remove_step, entry_contains.
  destruct (s_entry s !! field) eqn:He; simpl; [reflexivity |].
  symmetry. apply delete_id, He.
Qed.

(** C4: for a rule body with [remove: true], after the evaluation the
    destination field is absent from the entry and the other fields are as
    they were; with a job list made of that rule alone [process] returns
    [True] exactly when the entry had the destination field; and nothing of
    the extract, replace and assignment blocks runs: no record is logged, no
    exception is raised, and the outcome is the same for any other rule body
    with [remove: true] and for any engine. *)
Theorem remove_is_terminal (engine engine' : Re) (e : entry) (s : state)
    (field : string) (config config' : field_config) :
  c_remove config = Some true →
  c_remove config' = Some true →
  (∃ s',
     process_field (engine := engine) s field config = Ok s'
     ∧ s_entry s' !! field = None
     ∧ s_entry s' = delete field (s_entry s)
     ∧ s_log s' = s_log s)
  ∧ p_entry (process (engine := engine) e [[(field, config)]]) = delete field e
  ∧ p_log (process (engine := engine) e [[(field, config)]]) = []
  ∧ (∃ b,
       p_return (process (engine := engine) e [[(field, config)]]) = Ok b
       ∧ (b = true ↔ is_Some (e !! field)))
  ∧ process_field (engine := engine) s field config
    = process_field (engine := engine') s field config'.
Proof.
  intros Hrm Hrm'.
  split; [| split; [| split; [| split]]].
  - exists (remove_step s field). split; [apply process_field_remove, Hrm |].
    rewrite remove_step_entry. split; [apply lookup_delete_eq |].
    split; [reflexivity |].
    unfold remove_step. destruct (entry_contains _ _); reflexivity.
  - unfold process. simpl. rewrite (process_field_remove _ _ _ Hrm).
    apply remove_step_entry.
  - unfold process. simpl. rewrite (process_field_remove _ _ _ Hrm).
    unfold remove_step. simpl. destruct (entry_contains _ _); reflexivity.
  - exists (entry_contains e field). split.
    + unfold process. simpl. rewrite (process_field_remove _ _ _ Hrm).
      unfold remove_step. simpl. destruct (entry_contains _ _); reflexivity.
    + unfold entry_contains. destruct (e !! field) as [v|]; split.
      * intros _. exists v. reflexivity.
      * reflexivity.
      * discriminate.
      * intros [v Hv]. discriminate.
  - rewrite (process_field_remove (engine := engine) _ _ _ Hrm).
    rewrite (process_field_remove (engine := engine') _ _ _ Hrm').
    reflexivity.
Qed.

Lemma remove_is_terminal_witness :
  (∃ s',
     process_field (engine := MiniRe.engine)
       {| s_entry := {["title" := VStr "a 1"]}; s_modified := false; s_log := [] |}
       "title" remove_with_everything = Ok s'
     ∧ s_entry s' !! "title" = None
     ∧ s_entry s' = delete "title" {["title" := VStr "a 1"]}
     ∧ s_log s' = [])
  ∧ p_entry (process (engine := MiniRe.engine) {["title" := VStr "a 1"]}
               [[("title", remove_with_everything)]])
    = delete "title" {["title" := VStr "a 1"]}
  ∧ p_log (process (engine := MiniRe.engine) {["title" := VStr "a 1"]}
             [[("title", remove_with_everything)]]) = []
  ∧ (∃ b,
       p_return (process (engine := MiniRe.engine) {["title" := VStr "a 1"]}
                   [[("title", remove_with_everything)]]) = Ok b
       ∧ (b = true ↔ is_Some (({["title" := VStr "a 1"]} : entry) !! "title")))
  ∧ process_field (engine := MiniRe.engine)
      {| s_entry := {["title" := VStr "a 1"]}; s_modified := false; s_log := [] |}
      "title" remove_with_everything
    = process_field (engine := MiniRe.engine)
        {| s_entry := {["title" := VStr "a 1"]}; s_modified := false; s_log := [] |}
        "title" remove_only.
Proof.
  refine (remove_is_terminal MiniRe.engine MiniRe.engine
            {["title" := VStr "a 1"]}
            {| s_entry := {["title" := VStr "a 1"]}; s_modified := false; s_log := [] |}
            "title" remove_with_everything remove_only _ _);
    reflexivity.
Defined.

(** ** Copying from an absent source (C10) *)

(** C10: for a rule body with a [from] field other than the destination and
    with no [extract], [replace] or [remove], when the source field is absent
    from the entry the evaluation writes [None] into the destination field and
    counts the field as modified. *)
Theorem copy_of_absent_source_writes_None `{engine : Re} (s : state)
    (field source : string) (config : field_config) :
  c_from config = Some source →
  source ≠ field →
  c_extract config = None →
  c_replace config = None →
  default false (c_remove config) = false →
  s_entry s !! source = None →
  process_field s field config
  = Ok {| s_entry := <[field := VNone]> (s_entry s);
          s_modified := true;
          s_log := s_log s ++
            [LogVerbose ("Field `" +:+ field +:+ "` is now `None`")] |}.
Proof.
  intros Hfrom Hne Hex Hrp Hrm Hsrc.
  rewrite (process_field_unfold s field config Hrm). simpl.
  unfold field_value_after, extract_step, replace_step.
  rewrite Hfrom, Hex, Hrp. simpl.
  rewrite (entry_get_absent _ _ Hsrc).
  unfold assign_step. rewrite (changed_rename _ _ _ _ Hne). reflexivity.
Qed.

Lemma copy_of_absent_source_writes_None_witness :
  process_field (engine := MiniRe.engine)
    {| s_entry := {["show_title" := VStr "kept?"]}; s_modified := false; s_log := [] |}
    "show_title"
    {| c_phase := None; c_from := Some "title"; c_extract := None;
       c_separator := None; c_remove := None; c_replace := None |}
  = Ok {| s_entry := <["show_title" := VNone]> {["show_title" := VStr "kept?"]};
          s_modified := true;
          s_log := [LogVerbose "Field `show_title` is now `None`"] |}.
Proof.
  refine (copy_of_absent_source_writes_None (engine := MiniRe.engine)
            {| s_entry := {["show_title" := VStr "kept?"]}; s_modified := false; s_log := [] |}
            "show_title" "title"
            {| c_phase := None; c_from := Some "title"; c_extract := None;
               c_separator := None; c_remove := None; c_replace := None |}
            _ _ _ _ _ _); try reflexivity.
  discriminate.
Defined.

(** ** The extract block (C5, C6) *)

Lemma extract_step_match `{engine : Re} (config : field_config)
    (from_field pattern text : string) (groups : list (option string)) :
  c_extract config = Some pattern →
  text ≠ "" →
  re_search pattern text (Z.lor re_I re_U) = Ok (Some groups) →
  extract_step config from_field (VStr text)
  = Value (VStr (strip (join (default " " (c_separator config))
                             (present_groups groups)))).
Proof.
  intros Hex Hne Hm. unfold extract_step.
  rewrite Hex, (truthy_nonempty _ Hne), Hm. reflexivity.
Qed.

(** C5: with the pattern of the usage example (four digits in square
    brackets, then one group for the rest) and no separator key, the extract
    block turns the value ["[1999]Some Show"] into ["Some Show"], and
    [process] stores that in the field; the search ignores case and the
    result is trimmed; several groups are joined in their order by one space
    when there is no separator key and by the separator otherwise; a group
    that is [None], before, between or after the others, is left out
    together with its separator; the flags handed to [re.search] are
    [re.I | re.U]; and for every engine, when the search on a non-empty value
    matches, the new value is the groups that are not [None], in order,
    joined by the separator (one space by default) and stripped. *)
Theorem extract_joins_groups :
  extract_step (engine := MiniRe.engine) (extract_only "\[\d\d\d\d\](.*)")
    "title" (VStr "[1999]Some Show") = Value (VStr "Some Show")
  ∧ process (engine := MiniRe.engine) {["title" := VStr "[1999]Some Show"]}
      [[("title", extract_only "\[\d\d\d\d\](.*)")]]
    = {| p_entry := {["title" := VStr "Some Show"]};
         p_log := [LogVerbose "Field `title` is now `Some Show`"];
         p_return := Ok true |}
  ∧ extract_step (engine := MiniRe.engine) (extract_only "show:(.*)")
      "title" (VStr "Some SHOW:  The End ") = Value (VStr "The End")
  ∧ extract_step (engine := MiniRe.engine) (extract_only "(\d+)x(\d+)")
      "quality" (VStr "Show 1920X1080 web") = Value (VStr "1920 1080")
  ∧ extract_step (engine := MiniRe.engine) (extract_with "(\d+)p|(\d+)x(\d+)" " by ")
      "quality" (VStr "Show 1920X1080 web") = Value (VStr "1920 by 1080")
  ∧ extract_step (engine := MiniRe.engine) (extract_with "(s\d+)(e\d+)?(\.\d+p)" "/")
      "title" (VStr "Show S01.720p") = Value (VStr "S01/.720p")
  ∧ process (engine := MiniRe.engine)
      (<["title" := VStr "Show S01E02.720p"]> {["id" := VStr "old"]})
      [[("id", {| c_phase := None; c_from := Some "title";
                  c_extract := Some "(s\d+)(e\d+)?(\.\d+p)|(\d+)x(\d+)";
                  c_separator := Some ", "; c_remove := None;
                  c_replace := None |})]]
    = {| p_entry := <["title" := VStr "Show S01E02.720p"]>
                      {["id" := VStr "S01, E02, .720p"]};
         p_log := [LogVerbose "Field `id` is now `S01, E02, .720p`"];
         p_return := Ok true |}
  ∧ (Z.testbit (Z.lor re_I re_U) 1 = true ∧ Z.testbit (Z.lor re_I re_U) 5 = true)
  ∧ (∀ (engine : Re) (config : field_config)
       (from_field pattern text first second : string),
       c_extract config = Some pattern →
       text ≠ "" →
       re_search pattern text (Z.lor re_I re_U)
       = Ok (Some [None; Some first; None; Some second; None]) →
       extract_step config from_field (VStr text)
       = Value (VStr (strip (first +:+ default " " (c_separator config)
                             +:+ second))))
  ∧ ∀ (engine : Re) (config : field_config) (from_field pattern text : string)
      (groups : list (option string)),
      c_extract config = Some pattern →
      text ≠ "" →
      re_search pattern text (Z.lor re_I re_U) = Ok (Some groups) →
      extract_step config from_field (VStr text)
      = Value (VStr (strip (String.concat (default " " (c_separator config))
                                          (omap id groups)))).
Proof.
  split; [vm_compute; reflexivity |].
  split; [vm_compute; reflexivity |].
  split; [vm_compute; reflexivity |].
  split; [vm_compute; reflexivity |].
  split; [vm_compute; reflexivity |].
  split; [vm_compute; reflexivity |].
  split; [vm_compute; reflexivity |].
  split; [split; reflexivity |].
  split.
  - intros engine config from_field pattern text first second Hex Hne Hm.
    rewrite (extract_step_match config from_field pattern text _ Hex Hne Hm).
    reflexivity.
  - intros engine config from_field pattern text groups Hex Hne Hm.
    rewrite (extract_step_match config from_field pattern text groups Hex Hne Hm).
    reflexivity.
Qed.

(** Three groups, the first of them out of the match, and a separator. *)
Lemma extract_joins_groups_witness :
  extract_step (engine := MiniRe.engine)
    (extract_with "(\d+)p|(\d+)x(\d+)" " by ")
    "quality" (VStr "Show 1920X1080 web")
  = Value (VStr "1920 by 1080").
Proof.
  refine (proj2 (proj2 (proj2 (proj2 (proj2 (proj2 (proj2 (proj2 (proj2
            extract_joins_groups))))))))
            MiniRe.engine
            (extract_with "(\d+)p|(\d+)x(\d+)" " by ")
            "quality" "(\d+)p|(\d+)x(\d+)" "Show 1920X1080 web"
            [None; Some "1920"; Some "1080"] _ _ _).
  - reflexivity.
  - discriminate.
  - vm_compute. reflexivity.
Defined.

(** C6: for a non-empty source value, when the pattern of [extract] does not
    match, the extract block hands on the value it received, unchanged, and
    the replace block starts from that value. *)
Theorem extract_no_match_is_identity `{engine : Re} (config : field_config)
    (from_field pattern text : string) :
  c_extract config = Some pattern →
  text ≠ "" →
  re_search pattern text (Z.lor re_I re_U) = Ok None →
  extract_step config from_field (VStr text) = Value (VStr text)
  ∧ field_value_after config from_field (VStr text)
    = replace_step config from_field (VStr text).
Proof.
  intros Hex Hne Hm.
  assert (Hstep : extract_step config from_field (VStr text) = Value (VStr text)).
  { unfold extract_step. rewrite Hex, (truthy_nonempty _ Hne), Hm. reflexivity. }
  split; [exact Hstep |].
  unfold field_value_after. rewrite Hstep. reflexivity.
Qed.

Lemma extract_no_match_is_identity_witness :
  extract_step (engine := MiniRe.engine) (extract_only "\[\d\d\d\d\](.*)")
    "title" (VStr "[199]Some Show ") = Value (VStr "[199]Some Show ")
  ∧ field_value_after (engine := MiniRe.engine) (extract_only "\[\d\d\d\d\](.*)")
      "title" (VStr "[199]Some Show ")
    = replace_step (engine := MiniRe.engine) (extract_only "\[\d\d\d\d\](.*)")
        "title" (VStr "[199]Some Show ").
Proof.
  refine (extract_no_match_is_identity (engine := MiniRe.engine)
            (extract_only "\[\d\d\d\d\](.*)") "title" "\[\d\d\d\d\](.*)"
            "[199]Some Show " _ _ _).
  - reflexivity.
  - discriminate.
  - vm_compute. reflexivity.
Defined.

(** ** The replace block (C7) *)

Lemma replace_step_sub `{engine : Re} (config : field_config)
    (replace_config : replace_config) (from_field text text' : string) :
  c_replace config = Some replace_config →
  text ≠ "" →
  re_sub (r_regexp replace_config) (Z.lor re_I re_U)
         (r_format replace_config) text = Ok text' →
  replace_step config from_field (VStr text) = Value (VStr (strip text')).
Proof.
  intros Hrp Hne Hs. unfold replace_step.
  rewrite Hrp, (truthy_nonempty _ Hne), Hs. reflexivity.
Qed.

(** C7: with [regexp: "\s+"] and [format: " "] the replace block turns
    ["a   b"] into ["a b"], and [process] stores that in the field; every
    match is replaced, case is ignored, a back-reference in the format is
    filled in, and the result is trimmed; the pattern is compiled with
    [re.I | re.U]; and for every engine the new value is the stripped result
    of [sub] with the format on the current value. *)
Theorem replace_substitutes_and_trims :
  replace_step (engine := MiniRe.engine) (replace_only "\s+" " ")
    "title" (VStr "a   b") = Value (VStr "a b")
  ∧ process (engine := MiniRe.engine) {["title" := VStr "a   b"]}
      [[("title", replace_only "\s+" " ")]]
    = {| p_entry := {["title" := VStr "a b"]};
         p_log := [LogVerbose "Field `title` is now `a b`"];
         p_return := Ok true |}
  ∧ replace_step (engine := MiniRe.engine) (replace_only "\s+" " ")
      "title" (VStr "  a   b    c  ") = Value (VStr "a b c")
  ∧ replace_step (engine := MiniRe.engine) (replace_only "s(\d+)e(\d+)" "\1x\2 ")
      "title" (VStr "Show S01E02 S03e04") = Value (VStr "Show 01x02  03x04")
  ∧ (Z.testbit (Z.lor re_I re_U) 1 = true ∧ Z.testbit (Z.lor re_I re_U) 5 = true)
  ∧ ∀ (engine : Re) (config : field_config) (replace_config : replace_config)
      (from_field text text' : string),
      c_replace config = Some replace_config →
      text ≠ "" →
      re_sub (r_regexp replace_config) (Z.lor re_I re_U)
             (r_format replace_config) text = Ok text' →
      replace_step config from_field (VStr text) = Value (VStr (strip text')).
Proof.
  split; [vm_compute; reflexivity |].
  split; [vm_compute; reflexivity |].
  split; [vm_compute; reflexivity |].
  split; [vm_compute; reflexivity |].
  split; [split; reflexivity |].
  intros engine config replace_config from_field text text'.
  apply replace_step_sub.
Qed.

Lemma replace_substitutes_and_trims_witness :
  replace_step (engine := MiniRe.engine) (replace_only "\." " ")
    "title" (VStr "Some.Show.") = Value (VStr (strip "Some Show ")).
Proof.
  refine (proj2 (proj2 (proj2 (proj2 (proj2 replace_substitutes_and_trims))))
            MiniRe.engine (replace_only "\." " ")
            {| r_regexp := "\."; r_format := " " |}
            "title" "Some.Show." "Some Show " _ _ _).
  - reflexivity.
  - discriminate.
  - vm_compute. reflexivity.
Defined.

(** ** Change detection and assignment (C8) *)




(** ** A pattern without groups (C9) *)



(** * Further properties *)

(** ** The grouping made by [on_task_start] *)

Lemma add_fields_jobs (phase : phase_name) (it : item)
    (fields : list (string * field_config)) (pj : phase_jobs) :
  jobs_for
    (fold_left
       (fun pj item_config =>
          append_job (default Ph_metainfo (c_phase item_config)) it pj)
       (map snd fields) pj) phase
  = jobs_for pj phase ++ map (fun _ => it) (bodies_for phase fields).
Proof.
  revert pj. induction fields as [| [f c] fields IH]; intros pj; simpl.
  - rewrite app_nil_r. reflexivity.
  - rewrite IH, jobs_for_append, <- app_assoc. f_equal.
    destruct (decide (default Ph_metainfo (c_phase c) = phase)) as [Heq | Hne].
    + rewrite !bool_decide_eq_true_2 by exact Heq. reflexivity.
    + rewrite !bool_decide_eq_false_2 by exact Hne. reflexivity.
Qed.

Lemma fold_add_item_jobs (phase : phase_name) (config : list item)
    (pj : phase_jobs) :
  jobs_for (fold_left add_item config pj) phase
  = jobs_for pj phase
    ++ flat_map (fun it => map (fun _ => it) (bodies_for phase it)) config.
Proof.
  revert pj. induction config as [| it config IH]; intros pj; simpl.
  - rewrite app_nil_r. reflexivity.
  - rewrite IH. unfold add_item. rewrite add_fields_jobs, <- app_assoc.
    reflexivity.
Qed.

Lemma jobs_for_on_task_start (config : list item) (phase : phase_name) :
  jobs_for (on_task_start config) phase
  = flat_map (fun it => map (fun _ => it) (bodies_for phase it)) config.
Proof.
  unfold on_task_start. rewrite fold_add_item_jobs.
  destruct phase; reflexivity.
Qed.

Lemma in_jobs_for_on_task_start (config : list item) (phase : phase_name)
    (it : item) :
  In it (jobs_for (on_task_start config) phase)
  ↔ In it config
    ∧ ∃ field body, In (field, body) it
                    ∧ default Ph_metainfo (c_phase body) = phase.
Proof.
  rewrite jobs_for_on_task_start, in_flat_map. split.
  - intros (it' & Hin & Hrep). apply in_map_iff in Hrep as ([f c] & <- & Hb).
    unfold bodies_for in Hb. apply filter_In in Hb as [Hb Hph].
    split; [exact Hin |]. exists f, c. split; [exact Hb |].
    apply bool_decide_eq_true_1 in Hph. exact Hph.
  - intros (Hin & f & c & Hb & Hph). exists it. split; [exact Hin |].
    apply in_map_iff. exists (f, c). split; [reflexivity |].
    unfold bodies_for. apply filter_In. split; [exact Hb |].
    apply bool_decide_eq_true_2. exact Hph.
Qed.

(** X1: the job list of a phase holds, in the order of the configuration,
    each item once for every rule body of that phase it declares: an item
    with no such body is left out, an item with several is repeated. *)
Theorem on_task_start_jobs (config : list item) (phase : phase_name) :
  jobs_for (on_task_start config) phase
  = flat_map (fun it => map (fun _ => it) (bodies_for phase it)) config.
Proof. exact (jobs_for_on_task_start config phase). Qed.

(** X2: an item is in the job list of a phase exactly when it is an item of
    the configuration and one of its rule bodies is declared for that phase
    (or, for metainfo, declares none). *)
Theorem on_task_start_membership (config : list item) (phase : phase_name)
    (it : item) :
  In it (jobs_for (on_task_start config) phase)
  ↔ In it config
    ∧ ∃ field body, In (field, body) it
                    ∧ default Ph_metainfo (c_phase body) = phase.
Proof. exact (in_jobs_for_on_task_start config phase it). Qed.

Lemma bodies_for_lengths (it : item) :
  length (bodies_for Ph_filter it) + length (bodies_for Ph_metainfo it)
  + length (bodies_for Ph_modify it) = length it.
Proof.
  induction it as [| [f c] it IH]; [reflexivity |].
  unfold bodies_for in *. simpl.
  destruct (default Ph_metainfo (c_phase c)); simpl; lia.
Qed.

(** X3: the three job lists together have as many elements as the
    configuration has rule bodies: every rule body puts its item in exactly
    one list. *)
Theorem on_task_start_total (config : list item) :
  length (jobs_for (on_task_start config) Ph_filter)
  + length (jobs_for (on_task_start config) Ph_metainfo)
  + length (jobs_for (on_task_start config) Ph_modify)
  = length (concat config).
Proof.
  rewrite !jobs_for_on_task_start.
  induction config as [| it config IH]; [reflexivity |].
  simpl. rewrite !length_app, !length_map.
  pose proof (bodies_for_lengths it). lia.
Qed.

(** ** The phase handlers *)

Lemma on_task_phase_run `{engine : Re} (phase : phase_name) (pj : phase_jobs)
    (t : task) :
  on_task_phase phase pj t
  = run_jobs (jobs_for pj phase) t
      match phase with
      | Ph_metainfo => false
      | _ => true
      end.
Proof. destruct phase; reflexivity. Qed.

Lemma entries_seen_run (phase : phase_name) (t : task) :
  (if match phase with
      | Ph_metainfo => false
      | _ => true
      end
   then entries t ++ rejected t else entries t)
  = entries_seen phase t.
Proof. destruct phase; reflexivity. Qed.

(** X4: when no rule body of the configuration is declared for a phase, the
    handler of that phase returns at once: the entries and the rejected
    entries are as they were, nothing is logged and nothing is raised. *)
Theorem phase_without_rules_is_skipped `{engine : Re} (config : list item)
    (phase : phase_name) (t : task) :
  (∀ it field body,
     In it config → In (field, body) it →
     default Ph_metainfo (c_phase body) ≠ phase) →
  on_task_phase phase (on_task_start config) t
  = {| h_entries := entries t; h_rejected := rejected t;
       h_log := []; h_raised := None |}.
Proof.
  intros Hnone. rewrite on_task_phase_run.
  destruct (jobs_for (on_task_start config) phase) as [| it rest] eqn:Hjobs;
    [reflexivity |].
  exfalso.
  assert (Hin : In it (jobs_for (on_task_start config) phase))
    by (rewrite Hjobs; left; reflexivity).
  apply in_jobs_for_on_task_start in Hin as (Hc & f & b & Hb & Hph).
  exact (Hnone it f b Hc Hb Hph).
Qed.

Lemma phase_without_rules_is_skipped_witness :
  on_task_phase (engine := MiniRe.engine) Ph_filter
    (on_task_start [[("title", digits_of_title)]; [("url", drop_url)]])
    one_entry_task
  = {| h_entries := entries one_entry_task; h_rejected := rejected one_entry_task;
       h_log := []; h_raised := None |}.
Proof.
  refine (phase_without_rules_is_skipped (engine := MiniRe.engine)
            [[("title", digits_of_title)]; [("url", drop_url)]]
            Ph_filter one_entry_task _).
  intros it field body Hit Hbody.
  destruct Hit as [<- | [<- | []]];
    destruct Hbody as [Hb | []]; injection Hb as <- <-; discriminate.
Defined.

Lemma process_all_length `{engine : Re} (jobs : list item) (es : list entry) :
  length (process_all jobs es).1.1 = length es.
Proof.
  induction es as [| e es IH]; [reflexivity |].
  simpl. destruct (p_return (process e jobs)); [| reflexivity].
  destruct (process_all jobs es) as [[es' log'] n]. simpl in *.
  rewrite IH. reflexivity.
Qed.

(** X5: a handler never adds or drops an entry, whether it ends normally or
    with an exception: the task keeps as many entries and as many rejected
    entries as it had; and the metainfo handler leaves the rejected entries
    themselves as they were. *)
Theorem handlers_keep_the_entries `{engine : Re} (phase : phase_name)
    (pj : phase_jobs) (t : task) :
  length (h_entries (on_task_phase phase pj t)) = length (entries t)
  ∧ length (h_rejected (on_task_phase phase pj t)) = length (rejected t)
  ∧ h_rejected (on_task_phase Ph_metainfo pj t) = rejected t.
Proof.
  assert (Hrun : ∀ jobs (b : bool),
    length (h_entries (run_jobs jobs t b)) = length (entries t)
    ∧ length (h_rejected (run_jobs jobs t b)) = length (rejected t)).
  { intros jobs b. unfold run_jobs.
    destruct jobs as [| j js]; [split; reflexivity |].
    pose proof (process_all_length (j :: js)
                  (if b then entries t ++ rejected t else entries t)) as Hlen.
    destruct (process_all (j :: js)
                (if b then entries t ++ rejected t else entries t))
      as [[es' log] modified].
    simpl in *. destruct b.
    - rewrite length_app in Hlen. rewrite length_take, length_drop. lia.
    - rewrite length_take. lia. }
  split; [| split].
  - rewrite on_task_phase_run. apply Hrun.
  - rewrite on_task_phase_run. apply Hrun.
  - simpl. unfold on_task_metainfo, run_jobs.
    destruct (jobs_for pj Ph_metainfo) as [| j js]; [reflexivity |].
    destruct (process_all (j :: js) (entries t)) as [[es' log] modified].
    reflexivity.
Qed.

Lemma process_all_ok `{engine : Re} (jobs : list item) (es : list entry) :
  Forall (fun e => ∃ b, p_return (process e jobs) = Ok b) es →
  process_all jobs es
  = (map (fun e => p_entry (process e jobs)) es,
     flat_map (fun e => p_log (process e jobs)) es,
     Ok (modified_count jobs es)).
Proof.
  induction 1 as [| e es [b Hb] Hes IH]; [reflexivity |].
  simpl. rewrite Hb, IH. unfold modified_count. simpl. rewrite Hb.
  destruct b; reflexivity.
Qed.

(** X6: when the phase has jobs and [process] raises for none of the entries
    the handler sees, the handler replaces every such entry by the entry
    [process] leaves for it (each one evaluated on its own), logs the records
    of the calls in order, then the line with the number of entries reported
    as modified, and raises nothing; the metainfo handler sees the entries
    only, the other two the entries and then the rejected entries. *)
Theorem handler_maps_process `{engine : Re} (phase : phase_name)
    (pj : phase_jobs) (t : task) :
  jobs_for pj phase ≠ [] →
  Forall (fun e => ∃ b, p_return (process e (jobs_for pj phase)) = Ok b)
    (entries_seen phase t) →
  on_task_phase phase pj t
  = {| h_entries := map (fun e => p_entry (process e (jobs_for pj phase))) (entries t);
       h_rejected :=
         match phase with
         | Ph_metainfo => rejected t
         | _ => map (fun e => p_entry (process e (jobs_for pj phase))) (rejected t)
         end;
       h_log :=
         flat_map (fun e => p_log (process e (jobs_for pj phase)))
           (entries_seen phase t)
         ++ [LogVerbose ("Modified "
                         +:+ py_int (modified_count (jobs_for pj phase)
                                       (entries_seen phase t))
                         +:+ " entries.")];
       h_raised := None |}.
Proof.
  intros Hjobs Hok. rewrite on_task_phase_run. unfold run_jobs.
  destruct (jobs_for pj phase) as [| j js] eqn:Hj; [congruence |].
  rewrite entries_seen_run, (process_all_ok _ _ Hok).
  destruct phase; simpl.
  - rewrite take_ge by (rewrite length_map; lia). reflexivity.
  - rewrite map_app.
    rewrite take_app_length' by (rewrite length_map; reflexivity).
    rewrite drop_app_length' by (rewrite length_map; reflexivity).
    reflexivity.
  - rewrite map_app.
    rewrite take_app_length' by (rewrite length_map; reflexivity).
    rewrite drop_app_length' by (rewrite length_map; reflexivity).
    reflexivity.
Qed.

Lemma handler_maps_process_witness :
  on_task_phase (engine := MiniRe.engine) Ph_filter
    (on_task_start [two_phase_item]) two_entry_task
  = {| h_entries :=
         map (fun e => p_entry (process (engine := MiniRe.engine) e
                                  (jobs_for (on_task_start [two_phase_item]) Ph_filter)))
           (entries two_entry_task);
       h_rejected :=
         map (fun e => p_entry (process (engine := MiniRe.engine) e
                                  (jobs_for (on_task_start [two_phase_item]) Ph_filter)))
           (rejected two_entry_task);
       h_log :=
         flat_map (fun e => p_log (process (engine := MiniRe.engine) e
                                     (jobs_for (on_task_start [two_phase_item]) Ph_filter)))
           (entries_seen Ph_filter two_entry_task)
         ++ [LogVerbose ("Modified "
                         +:+ py_int (modified_count (engine := MiniRe.engine)
                                       (jobs_for (on_task_start [two_phase_item]) Ph_filter)
                                       (entries_seen Ph_filter two_entry_task))
                         +:+ " entries.")];
       h_raised := None |}.
Proof.
  refine (handler_maps_process (engine := MiniRe.engine) Ph_filter
            (on_task_start [two_phase_item]) two_entry_task _ _).
  - discriminate.
  - repeat constructor.
    + exists true. vm_compute. reflexivity.
    + exists true. vm_compute. reflexivity.
Defined.

(** X7: when [process] raises for an entry, the entries before it have been
    evaluated, that entry keeps what was written to it before the exception,
    the entries after it are not evaluated at all, and the sum is lost to the
    exception; the handler then raises it without logging its count. *)
Theorem exception_stops_the_phase `{engine : Re} (phase : phase_name)
    (pj : phase_jobs) (t : task) (es1 es2 : list entry) (e : entry) (x : exn) :
  entries_seen phase t = es1 ++ e :: es2 →
  Forall (fun e => ∃ b, p_return (process e (jobs_for pj phase)) = Ok b) es1 →
  p_return (process e (jobs_for pj phase)) = Raise x →
  process_all (jobs_for pj phase) (es1 ++ e :: es2)
  = (map (fun e => p_entry (process e (jobs_for pj phase))) es1
     ++ p_entry (process e (jobs_for pj phase)) :: es2,
     flat_map (fun e => p_log (process e (jobs_for pj phase))) es1
     ++ p_log (process e (jobs_for pj phase)),
     Raise x)
  ∧ h_raised (on_task_phase phase pj t) = Some x
  ∧ h_log (on_task_phase phase pj t)
    = flat_map (fun e => p_log (process e (jobs_for pj phase))) es1
      ++ p_log (process e (jobs_for pj phase)).
Proof.
  intros Hseen Hok Hx.
  assert (Hall : process_all (jobs_for pj phase) (es1 ++ e :: es2)
    = (map (fun e => p_entry (process e (jobs_for pj phase))) es1
       ++ p_entry (process e (jobs_for pj phase)) :: es2,
       flat_map (fun e => p_log (process e (jobs_for pj phase))) es1
       ++ p_log (process e (jobs_for pj phase)),
       Raise x)).
  { clear Hseen. induction Hok as [| e1 es1 [b Hb] Hes IH]; simpl.
    - rewrite Hx. reflexivity.
    - rewrite Hb, IH, <- app_assoc. reflexivity. }
  split; [exact Hall |].
  assert (Hjobs : jobs_for pj phase ≠ []).
  { intros Hnil. rewrite Hnil in Hx. discriminate. }
  rewrite on_task_phase_run. unfold run_jobs.
  destruct (jobs_for pj phase) as [| j js] eqn:Hj; [congruence |].
  rewrite entries_seen_run, Hseen, Hall. split; reflexivity.
Qed.

Lemma exception_stops_the_phase_witness :
  process_all (engine := MiniRe.engine)
    (jobs_for (on_task_start in_place_jobs) Ph_metainfo)
    ([ {["title" := VStr "Some Show"]} ] ++ ∅ :: [ {["url" := VStr "u"]} ])
  = (map (fun e => p_entry (process (engine := MiniRe.engine) e
                              (jobs_for (on_task_start in_place_jobs) Ph_metainfo)))
       [ {["title" := VStr "Some Show"]} ]
     ++ p_entry (process (engine := MiniRe.engine) ∅
                   (jobs_for (on_task_start in_place_jobs) Ph_metainfo))
        :: [ {["url" := VStr "u"]} ],
     flat_map (fun e => p_log (process (engine := MiniRe.engine) e
                                 (jobs_for (on_task_start in_place_jobs) Ph_metainfo)))
       [ {["title" := VStr "Some Show"]} ]
     ++ p_log (process (engine := MiniRe.engine) ∅
                 (jobs_for (on_task_start in_place_jobs) Ph_metainfo)),
     Raise (KeyError "title"))
  ∧ h_raised (on_task_phase (engine := MiniRe.engine) Ph_metainfo
                (on_task_start in_place_jobs)
                {| entries := [ {["title" := VStr "Some Show"]}; ∅; {["url" := VStr "u"]} ];
                   rejected := [] |})
    = Some (KeyError "title")
  ∧ h_log (on_task_phase (engine := MiniRe.engine) Ph_metainfo
             (on_task_start in_place_jobs)
             {| entries := [ {["title" := VStr "Some Show"]}; ∅; {["url" := VStr "u"]} ];
                rejected := [] |})
    = flat_map (fun e => p_log (process (engine := MiniRe.engine) e
                                  (jobs_for (on_task_start in_place_jobs) Ph_metainfo)))
        [ {["title" := VStr "Some Show"]} ]
      ++ p_log (process (engine := MiniRe.engine) ∅
                  (jobs_for (on_task_start in_place_jobs) Ph_metainfo)).
Proof.
  refine (exception_stops_the_phase (engine := MiniRe.engine) Ph_metainfo
            (on_task_start in_place_jobs)
            {| entries := [ {["title" := VStr "Some Show"]}; ∅; {["url" := VStr "u"]} ];
               rejected := [] |}
            [ {["title" := VStr "Some Show"]} ] [ {["url" := VStr "u"]} ] ∅
            (KeyError "title") _ _ _).
  - reflexivity.
  - repeat constructor. exists false. vm_compute. reflexivity.
  - vm_compute. reflexivity.
Defined.

(** ** What [process] touches *)

Lemma process_projections `{engine : Re} (e : entry) (jobs : list item) :
  p_entry (process e jobs)
  = s_entry (process_jobs {| s_entry := e; s_modified := false; s_log := [] |} jobs).1
  ∧ p_log (process e jobs)
    = s_log (process_jobs {| s_entry := e; s_modified := false; s_log := [] |} jobs).1
  ∧ p_return (process e jobs)
    = match (process_jobs {| s_entry := e; s_modified := false; s_log := [] |} jobs).2 with
      | None =>
          Ok (s_modified
                (process_jobs {| s_entry := e; s_modified := false; s_log := [] |} jobs).1)
      | Some x => Raise x
      end.
Proof.
  unfold process.
  destruct (process_jobs _ jobs) as [s x]. repeat split.
Qed.

Lemma process_field_frame `{engine : Re} (s s' : state) (field key : string)
    (config : field_config) :
  process_field s field config = Ok s' →
  key ≠ field →
  s_entry s' !! key = s_entry s !! key.
Proof.
  intros Hpf Hne.
  destruct (default false (c_remove config)) eqn:Hrm.
  - unfold process_field in Hpf. rewrite Hrm in Hpf. injection Hpf as <-.
    rewrite remove_step_entry. apply lookup_delete_ne. congruence.
  - rewrite (process_field_unfold s field config Hrm) in Hpf. simpl in Hpf.
    destruct (field_value_after _ _ _) as [v | msg | x].
    + unfold assign_step in Hpf.
      destruct (changed _ _ _ _) as [c | x]; [| discriminate].
      injection Hpf as <-. destruct c; simpl; apply lookup_insert_ne; congruence.
    + injection Hpf as <-. reflexivity.
    + discriminate.
Qed.

Lemma process_item_frame `{engine : Re} (fields : item) (s : state)
    (key : string) :
  ¬ In key (map fst fields) →
  s_entry (process_item s fields).1 !! key = s_entry s !! key.
Proof.
  revert s. induction fields as [| [f c] fields IH]; intros s Hk; [reflexivity |].
  simpl in *. destruct (process_field s f c) as [s1 | x] eqn:Hpf; [| reflexivity].
  rewrite IH by tauto.
  apply (process_field_frame _ _ _ _ _ Hpf). intros ->. tauto.
Qed.

Lemma process_jobs_frame `{engine : Re} (jobs : list item) (s : state)
    (key : string) :
  ¬ In key (destinations jobs) →
  s_entry (process_jobs s jobs).1 !! key = s_entry s !! key.
Proof.
  revert s. induction jobs as [| it jobs IH]; intros s Hk; [reflexivity |].
  unfold destinations in *. simpl in *. rewrite in_app_iff in Hk.
  pose proof (process_item_frame it s key) as Hit.
  destruct (process_item s it) as [s1 [x |]]; simpl in *.
  - apply Hit. tauto.
  - rewrite IH by tauto. apply Hit. tauto.
Qed.

(** X8: [process] reads and writes the entry only through the destination
    fields of its jobs: a field that is the destination of no rule body holds
    after the call, whether it returns or raises, what it held before (and is
    absent if it was absent). *)
Theorem process_touches_destinations_only `{engine : Re} (e : entry)
    (jobs : list item) (key : string) :
  ¬ In key (destinations jobs) →
  p_entry (process e jobs) !! key = e !! key.
Proof.
  intros Hk. destruct (process_projections e jobs) as [-> _].
  exact (process_jobs_frame jobs
           {| s_entry := e; s_modified := false; s_log := [] |} key Hk).
Qed.

Lemma process_touches_destinations_only_witness :
  p_entry (process (engine := MiniRe.engine) abc_entry
             [[("show_title", groupless_copy)]; [("url", drop_url)]]) !! "title"
  = abc_entry !! "title".
Proof.
  refine (process_touches_destinations_only (engine := MiniRe.engine) abc_entry
            [[("show_title", groupless_copy)]; [("url", drop_url)]] "title" _).
  simpl. intros [H | [H | []]]; discriminate.
Defined.

(** ** What a [False] from [process] means *)

Lemma process_field_unmodified `{engine : Re} (s s' : state) (field : string)
    (config : field_config) :
  process_field s field config = Ok s' →
  s_modified s' = false →
  s_entry s' = s_entry s
  ∧ s_modified s = false
  ∧ ∀ msg, In (LogVerbose msg) (s_log s') → In (LogVerbose msg) (s_log s).
Proof.
  intros Hpf Hm.
  destruct (default false (c_remove config)) eqn:Hrm.
  - unfold process_field in Hpf. rewrite Hrm in Hpf. injection Hpf as <-.
    unfold remove_step in *. destruct (entry_contains _ _); [discriminate |].
    repeat split; auto.
  - rewrite (process_field_unfold s field config Hrm) in Hpf. simpl in Hpf.
    destruct (field_value_after _ _ _) as [v | msg | x]; [| | discriminate].
    + unfold assign_step, changed, entry_getitem in Hpf.
      destruct (bool_decide (default field (c_from config) ≠ field));
        [injection Hpf as <-; discriminate |].
      destruct (s_entry s !! field) as [old |] eqn:Hold; [| discriminate].
      destruct (bool_decide (old ≠ v)) eqn:Hov;
        [injection Hpf as <-; discriminate |].
      injection Hpf as <-. simpl in *.
      apply bool_decide_eq_false_1 in Hov.
      assert (old = v) as -> by (destruct (decide (old = v)); tauto).
      split; [apply insert_id, Hold |]. split; auto.
    + injection Hpf as <-. simpl in *. split; [reflexivity |].
      split; [exact Hm |].
      intros m Hin. apply in_app_iff in Hin as [Hin | [Hin | []]];
        [exact Hin | discriminate].
Qed.

Lemma process_item_unmodified `{engine : Re} (fields : item) (s s' : state) :
  process_item s fields = (s', None) →
  s_modified s' = false →
  s_entry s' = s_entry s
  ∧ s_modified s = false
  ∧ ∀ msg, In (LogVerbose msg) (s_log s') → In (LogVerbose msg) (s_log s).
Proof.
  revert s. induction fields as [| [f c] fields IH]; intros s Hpi Hm; simpl in Hpi.
  - injection Hpi as <-. auto.
  - destruct (process_field s f c) as [s1 | x] eqn:Hpf; [| discriminate].
    destruct (IH s1 Hpi Hm) as (He & Hm1 & Hl).
    destruct (process_field_unmodified _ _ _ _ Hpf Hm1) as (He1 & Hm0 & Hl1).
    split; [congruence |]. split; auto.
Qed.

Lemma process_jobs_unmodified `{engine : Re} (jobs : list item) (s s' : state) :
  process_jobs s jobs = (s', None) →
  s_modified s' = false →
  s_entry s' = s_entry s
  ∧ s_modified s = false
  ∧ ∀ msg, In (LogVerbose msg) (s_log s') → In (LogVerbose msg) (s_log s).
Proof.
  revert s. induction jobs as [| it jobs IH]; intros s Hpj Hm; simpl in Hpj.
  - injection Hpj as <-. auto.
  - destruct (process_item s it) as [s1 [x |]] eqn:Hpi; [discriminate |].
    destruct (IH s1 Hpj Hm) as (He & Hm1 & Hl).
    destruct (process_item_unmodified _ _ _ Hpi Hm1) as (He1 & Hm0 & Hl1).
    split; [congruence |]. split; auto.
Qed.

(** X9: when [process] returns [False] the entry is exactly as it was before
    the call, and no "Field ... is now ..." line was logged: every removal of
    a field that was there, and every assignment that changes a field, makes
    the call return [True]. *)
Theorem unmodified_means_unchanged `{engine : Re} (e : entry)
    (jobs : list item) :
  p_return (process e jobs) = Ok false →
  p_entry (process e jobs) = e
  ∧ ∀ msg, ¬ In (LogVerbose msg) (p_log (process e jobs)).
Proof.
  destruct (process_projections e jobs) as (-> & -> & ->).
  destruct (process_jobs _ jobs) as [s' [x |]] eqn:Hpj; simpl; [discriminate |].
  intros Hm. injection Hm as Hm.
  destruct (process_jobs_unmodified _ _ _ Hpj Hm) as (He & _ & Hl).
  split; [exact He |]. intros msg Hin. exact (Hl msg Hin).
Qed.

Lemma unmodified_means_unchanged_witness :
  p_entry (process (engine := MiniRe.engine) abc_entry
             [[("show_title", groupless_copy)]; [("url", drop_url)]])
  = abc_entry
  ∧ ∀ msg,
      ¬ In (LogVerbose msg)
          (p_log (process (engine := MiniRe.engine) abc_entry
                    [[("show_title", groupless_copy)]; [("url", drop_url)]])).
Proof.
  refine (unmodified_means_unchanged (engine := MiniRe.engine) abc_entry
            [[("show_title", groupless_copy)]; [("url", drop_url)]] _).
  vm_compute. reflexivity.
Defined.

(** ** Where an exception can come from *)

Lemma entry_get_str (e : entry) (key text : string) :
  entry_get e key = VStr text → e !! key = Some (VStr text).
Proof.
  unfold entry_get. destruct (e !! key) as [v |]; simpl; [congruence | discriminate].
Qed.

Lemma extract_step_value `{engine : Re} (config : field_config)
    (from_field : string) (v w : value) :
  extract_step config from_field v = Value w →
  (w = v ∨ ∃ text, w = VStr text) ∧ (c_extract config = None → w = v).
Proof.
  unfold extract_step. destruct (c_extract config) as [pat |].
  - destruct (truthy v); simpl; [| discriminate].
    destruct v as [| text]; [discriminate |].
    destruct (re_search pat text _) as [[groups |] | x]; intros Hw;
      try discriminate; injection Hw as <-; split; eauto; discriminate.
  - intros Hw. injection Hw as <-. auto.
Qed.

Lemma process_field_raises `{engine : Re} (s : state) (field : string)
    (config : field_config) (x : exn) :
  process_field s field config = Raise x →
  (x = KeyError field
   ∧ default false (c_remove config) = false
   ∧ default field (c_from config) = field
   ∧ c_extract config = None
   ∧ c_replace config = None
   ∧ s_entry s !! field = None)
  ∨ (∃ pattern text,
       c_extract config = Some pattern
       ∧ re_search pattern text (Z.lor re_I re_U) = Raise x)
  ∨ (∃ replace_config text,
       c_replace config = Some replace_config
       ∧ re_sub (r_regexp replace_config) (Z.lor re_I re_U)
                (r_format replace_config) text = Raise x).
Proof.
  intros Hpf.
  destruct (default false (c_remove config)) eqn:Hrm;
    [unfold process_field in Hpf; rewrite Hrm in Hpf; discriminate |].
  unfold process_field in Hpf. rewrite Hrm in Hpf.
  set (from_field := default field (c_from config)) in *.
  destruct (extract_step config from_field (entry_get (s_entry s) from_field))
    as [v | msg | x1] eqn:Hex; [| discriminate |].
  - destruct (replace_step config from_field v) as [w | msg | x2] eqn:Hrp;
      [| discriminate |].
    + (* the lookup of the change detection *)
      unfold assign_step, changed, entry_getitem in Hpf.
      destruct (bool_decide (from_field ≠ field)) eqn:Hff; [discriminate |].
      apply bool_decide_eq_false_1 in Hff.
      assert (Heq : from_field = field)
        by (destruct (decide (from_field = field)); tauto).
      destruct (s_entry s !! field) as [old |] eqn:Hold; [discriminate |].
      simpl in Hpf. injection Hpf as <-. left.
      assert (Hget : entry_get (s_entry s) from_field = VNone)
        by (rewrite Heq; apply entry_get_absent, Hold).
      rewrite Hget in Hex.
      assert (Hexn : c_extract config = None).
      { unfold extract_step in Hex.
        destruct (c_extract config); [discriminate | reflexivity]. }
      assert (Hv : v = VNone).
      { apply (extract_step_value _ _ _ _ Hex), Hexn. }
      subst v.
      assert (Hrpn : c_replace config = None).
      { unfold replace_step in Hrp.
        destruct (c_replace config); [discriminate | reflexivity]. }
      repeat split; assumption.
    + (* the substitution *)
      injection Hpf as <-. right. right.
      unfold replace_step in Hrp.
      destruct (c_replace config) as [rc |]; [| discriminate].
      destruct (truthy v) eqn:Ht; simpl in Hrp; [| discriminate].
      destruct v as [| text]; [discriminate Ht |].
      destruct (re_sub _ _ _ text) as [t' | x3] eqn:Hs; [discriminate |].
      injection Hrp as <-. exists rc, text. split; [reflexivity | exact Hs].
  - (* the search *)
    injection Hpf as <-. right. left.
    unfold extract_step in Hex.
    destruct (c_extract config) as [pat |]; [| discriminate].
    destruct (truthy (entry_get (s_entry s) from_field)) eqn:Ht; simpl in Hex;
      [| discriminate].
    destruct (entry_get (s_entry s) from_field) as [| text]; [discriminate Ht |].
    destruct (re_search pat text _) as [[g |] | x3] eqn:Hs; try discriminate.
    injection Hex as <-. exists pat, text. split; [reflexivity | exact Hs].
Qed.

Lemma process_item_raises `{engine : Re} (fields : item) (s s' : state)
    (x : exn) :
  process_item s fields = (s', Some x) →
  ∃ field config,
    In (field, config) fields ∧ process_field s' field config = Raise x.
Proof.
  revert s. induction fields as [| [f c] fields IH]; intros s Hpi; simpl in Hpi;
    [discriminate |].
  destruct (process_field s f c) as [s1 | x1] eqn:Hpf.
  - destruct (IH s1 Hpi) as (f' & c' & Hin & Hr).
    exists f', c'. split; [right; exact Hin | exact Hr].
  - injection Hpi as <- <-. exists f, c. split; [left; reflexivity | exact Hpf].
Qed.

Lemma process_jobs_raises `{engine : Re} (jobs : list item) (s s' : state)
    (x : exn) :
  process_jobs s jobs = (s', Some x) →
  ∃ it field config,
    In it jobs ∧ In (field, config) it
    ∧ process_field s' field config = Raise x.
Proof.
  revert s. induction jobs as [| it jobs IH]; intros s Hpj; simpl in Hpj;
    [discriminate |].
  destruct (process_item s it) as [s1 [x1 |]] eqn:Hpi.
  - injection Hpj as <- <-.
    destruct (process_item_raises _ _ _ _ Hpi) as (f & c & Hin & Hr).
    exists it, f, c. split; [left; reflexivity | split; assumption].
  - destruct (IH s1 Hpj) as (it' & f & c & Hin & Hb & Hr).
    exists it', f, c. split; [right; exact Hin | split; assumption].
Qed.

(** X10: an exception out of [process] has one of three origins, each tied to
    a rule body of the job list: the [KeyError] of the change detection, for
    a body with no [remove], [extract] or [replace] whose source is its own
    destination, on a field that the entry (as the call leaves it) does not
    have; an exception raised by [re.search] on the [extract] pattern; or one
    raised by the substitution of the [replace] pattern.  In particular
    [process] never passes [None] to the engine. *)
Theorem process_raises_only `{engine : Re} (e : entry) (jobs : list item)
    (x : exn) :
  p_return (process e jobs) = Raise x →
  ∃ it field config,
    In it jobs ∧ In (field, config) it
    ∧ ((x = KeyError field
        ∧ default false (c_remove config) = false
        ∧ default field (c_from config) = field
        ∧ c_extract config = None
        ∧ c_replace config = None
        ∧ p_entry (process e jobs) !! field = None)
       ∨ (∃ pattern text,
            c_extract config = Some pattern
            ∧ re_search pattern text (Z.lor re_I re_U) = Raise x)
       ∨ (∃ replace_config text,
            c_replace config = Some replace_config
            ∧ re_sub (r_regexp replace_config) (Z.lor re_I re_U)
                     (r_format replace_config) text = Raise x)).
Proof.
  destruct (process_projections e jobs) as (-> & _ & ->).
  destruct (process_jobs _ jobs) as [s' [x' |]] eqn:Hpj; simpl; [| discriminate].
  intros Hx. injection Hx as ->.
  destruct (process_jobs_raises _ _ _ _ Hpj) as (it & f & c & Hin & Hb & Hr).
  exists it, f, c. split; [exact Hin |]. split; [exact Hb |].
  exact (process_field_raises _ _ _ _ Hr).
Qed.

Lemma process_raises_only_witness :
  ∃ it field config,
    In it [[("show_title", groupless_copy)]; [("title", replace_only "a" "\1")]]
    ∧ In (field, config) it
    ∧ ((ReError "invalid group reference" = KeyError field
        ∧ default false (c_remove config) = false
        ∧ default field (c_from config) = field
        ∧ c_extract config = None
        ∧ c_replace config = None
        ∧ p_entry (process (engine := MiniRe.engine) abc_entry
                     [[("show_title", groupless_copy)];
                      [("title", replace_only "a" "\1")]]) !! field = None)
       ∨ (∃ pattern text,
            c_extract config = Some pattern
            ∧ MiniRe.search pattern text (Z.lor re_I re_U)
              = Raise (ReError "invalid group reference"))
       ∨ (∃ replace_config text,
            c_replace config = Some replace_config
            ∧ MiniRe.sub (r_regexp replace_config) (Z.lor re_I re_U)
                (r_format replace_config) text
              = Raise (ReError "invalid group reference"))).
Proof.
  refine (process_raises_only (engine := MiniRe.engine) abc_entry
            [[("show_title", groupless_copy)]; [("title", replace_only "a" "\1")]]
            (ReError "invalid group reference") _).
  vm_compute. reflexivity.
Defined.

(** ** Running one job list after another *)

Lemma resume_fresh (s : state) :
  resume (s_modified s) (s_log s)
    {| s_entry := s_entry s; s_modified := false; s_log := [] |} = s.
Proof.
  destruct s as [e m l]. unfold resume. simpl.
  rewrite orb_false_r, app_nil_r. reflexivity.
Qed.

Lemma process_field_resume `{engine : Re} (m : bool) (l : list log_record)
    (s : state) (field : string) (config : field_config) :
  process_field (resume m l s) field config
  = match process_field s field config with
    | Ok s' => Ok (resume m l s')
    | Raise x => Raise x
    end.
Proof.
  unfold process_field. simpl.
  destruct (default false (c_remove config)).
  - unfold remove_step. simpl.
    destruct (entry_contains (s_entry s) field); [| reflexivity].
    unfold resume. simpl. rewrite orb_true_r. reflexivity.
  - destruct (extract_step _ _ _) as [v | msg | x]; [| | reflexivity].
    + destruct (replace_step _ _ _) as [w | msg | x]; [| | reflexivity].
      * unfold assign_step. simpl.
        destruct (changed _ _ _ _) as [[|] | x]; [| reflexivity | reflexivity].
        unfold resume. simpl. rewrite orb_true_r, app_assoc. reflexivity.
      * unfold log_to, resume. simpl. rewrite app_assoc. reflexivity.
    + unfold log_to, resume. simpl. rewrite app_assoc. reflexivity.
Qed.

Lemma process_item_resume `{engine : Re} (m : bool) (l : list log_record)
    (fields : item) (s : state) :
  process_item (resume m l s) fields
  = (resume m l (process_item s fields).1, (process_item s fields).2).
Proof.
  revert s. induction fields as [| [f c] fields IH]; intros s; [reflexivity |].
  simpl. rewrite process_field_resume.
  destruct (process_field s f c) as [s1 | x]; [apply IH | reflexivity].
Qed.

Lemma process_jobs_resume `{engine : Re} (m : bool) (l : list log_record)
    (jobs : list item) (s : state) :
  process_jobs (resume m l s) jobs
  = (resume m l (process_jobs s jobs).1, (process_jobs s jobs).2).
Proof.
  revert s. induction jobs as [| it jobs IH]; intros s; [reflexivity |].
  simpl. rewrite process_item_resume.
  destruct (process_item s it) as [s1 [x |]]; simpl; [reflexivity | apply IH].
Qed.

Lemma process_jobs_app `{engine : Re} (jobs1 jobs2 : list item) (s : state) :
  process_jobs s (jobs1 ++ jobs2)
  = match process_jobs s jobs1 with
    | (s1, None) => process_jobs s1 jobs2
    | (s1, Some x) => (s1, Some x)
    end.
Proof.
  revert s. induction jobs1 as [| it jobs1 IH]; intros s; [reflexivity |].
  simpl. destruct (process_item s it) as [s1 [x |]]; [reflexivity | apply IH].
Qed.

(** X11: running [process] on two job lists in a row is running it on the
    first, and, when that returns, on the second with the entry the first
    left: the second list reads what the first wrote, the logs follow each
    other, and the result is [True] when either call reports a modification;
    when the first list raises, the second is not run. *)
Theorem process_app `{engine : Re} (e : entry) (jobs1 jobs2 : list item) :
  process e (jobs1 ++ jobs2)
  = match p_return (process e jobs1) with
    | Raise _ => process e jobs1
    | Ok m1 =>
        {| p_entry := p_entry (process (p_entry (process e jobs1)) jobs2);
           p_log := p_log (process e jobs1)
                    ++ p_log (process (p_entry (process e jobs1)) jobs2);
           p_return :=
             match p_return (process (p_entry (process e jobs1)) jobs2) with
             | Ok m2 => Ok (m1 || m2)
             | Raise x => Raise x
             end |}
    end.
Proof.
  unfold process. rewrite process_jobs_app.
  destruct (process_jobs _ jobs1) as [s1 [x |]]; simpl; [reflexivity |].
  pose proof (process_jobs_resume (s_modified s1) (s_log s1) jobs2
                {| s_entry := s_entry s1; s_modified := false; s_log := [] |})
    as Hr.
  rewrite resume_fresh in Hr. rewrite Hr.
  destruct (process_jobs {| s_entry := s_entry s1; s_modified := false; s_log := [] |}
              jobs2) as [s2 [x |]]; reflexivity.
Qed.

(** ** Items and configurations in pieces *)

Lemma process_item_app `{engine : Re} (fields1 fields2 : item) (s : state) :
  process_item s (fields1 ++ fields2)
  = match process_item s fields1 with
    | (s1, None) => process_item s1 fields2
    | (s1, Some x) => (s1, Some x)
    end.
Proof.
  revert s. induction fields1 as [| [f c] fields1 IH]; intros s; [reflexivity |].
  simpl. destruct (process_field s f c) as [s1 | x]; [apply IH | reflexivity].
Qed.

(** X12: for [process], an item that declares several destination fields is
    the same as one item for each piece of it, in the same order: the fields
    of an item are evaluated one after the other exactly as the items of the
    job list are. *)
Theorem process_splits_items `{engine : Re} (e : entry) (fields1 fields2 : item)
    (jobs : list item) :
  process e ((fields1 ++ fields2) :: jobs)
  = process e (fields1 :: fields2 :: jobs).
Proof.
  unfold process. simpl. rewrite process_item_app.
  destruct (process_item _ fields1) as [s1 [x |]]; reflexivity.
Qed.

(** X13: grouping a configuration made of two parts gives, for every phase,
    the job list of the first part followed by the job list of the second. *)
Theorem on_task_start_app (config1 config2 : list item) (phase : phase_name) :
  jobs_for (on_task_start (config1 ++ config2)) phase
  = jobs_for (on_task_start config1) phase
    ++ jobs_for (on_task_start config2) phase.
Proof. rewrite !jobs_for_on_task_start. apply flat_map_app. Qed.

(** ** The value stored by a replace *)

Lemma lstrip_first (s : string) (c : ascii) :
  first_char (lstrip s) = Some c → py_isspace c = false.
Proof.
  induction s as [| a s IH]; simpl; [discriminate |].
  destruct (py_isspace a) eqn:Ha; [exact IH |].
  simpl. intros Hc. injection Hc as <-. exact Ha.
Qed.

Lemma rstrip_first (s : string) (c : ascii) :
  first_char (rstrip s) = Some c → first_char s = Some c.
Proof.
  destruct s as [| a s]; simpl; [discriminate |].
  destruct (rstrip s); [destruct (py_isspace a) |]; simpl; congruence.
Qed.

Lemma rstrip_last (s : string) (c : ascii) :
  last_char (rstrip s) = Some c → py_isspace c = false.
Proof.
  induction s as [| a s IH]; simpl; [discriminate |].
  destruct (rstrip s) as [| d t] eqn:Hr.
  - destruct (py_isspace a) eqn:Ha; simpl; [discriminate |].
    intros Hc. injection Hc as <-. exact Ha.
  - exact IH.
Qed.

Lemma strip_trimmed (s : string) : trimmed (strip s).
Proof.
  unfold trimmed, strip. split; intros c Hc.
  - apply (lstrip_first s), rstrip_first, Hc.
  - apply (rstrip_last _ _ Hc).
Qed.

(** X14: a rule body with [replace] (and no [remove]) either leaves the entry
    as it was, when the field is skipped for a missing value, or stores in
    the destination field a string with no white space at either end; it
    never stores [None]. *)
Theorem replaced_value_is_trimmed `{engine : Re} (s s' : state)
    (field : string) (config : field_config) :
  is_Some (c_replace config) →
  default false (c_remove config) = false →
  process_field s field config = Ok s' →
  s_entry s' = s_entry s
  ∨ ∃ text, s_entry s' !! field = Some (VStr text) ∧ trimmed text.
Proof.
  intros [rc Hrc] Hrm Hpf.
  rewrite (process_field_unfold s field config Hrm) in Hpf. simpl in Hpf.
  unfold field_value_after in Hpf.
  destruct (extract_step _ _ _) as [v | msg | x];
    [| injection Hpf as <-; left; reflexivity | discriminate].
  unfold replace_step in Hpf. rewrite Hrc in Hpf.
  destruct (truthy v); simpl in Hpf; [| injection Hpf as <-; left; reflexivity].
  destruct v as [| text]; [discriminate |].
  destruct (re_sub _ _ _ text) as [text' | x]; [| discriminate].
  unfold assign_step in Hpf.
  destruct (changed _ _ _ _) as [c | x]; [| discriminate].
  injection Hpf as <-. right. exists (strip text'). simpl.
  split; [| apply strip_trimmed].
  destruct c; apply lookup_insert_eq.
Qed.

Lemma replaced_value_is_trimmed_witness :
  s_entry
    {| s_entry := <["title" := VStr "a b"]> {["title" := VStr "  a   b "]};
       s_modified := true;
       s_log := [LogVerbose "Field `title` is now `a b`"] |}
  = s_entry {| s_entry := {["title" := VStr "  a   b "]};
               s_modified := false; s_log := [] |}
  ∨ ∃ text,
      s_entry
        {| s_entry := <["title" := VStr "a b"]> {["title" := VStr "  a   b "]};
           s_modified := true;
           s_log := [LogVerbose "Field `title` is now `a b`"] |} !! "title"
      = Some (VStr text) ∧ trimmed text.
Proof.
  refine (replaced_value_is_trimmed (engine := MiniRe.engine)
            {| s_entry := {["title" := VStr "  a   b "]};
               s_modified := false; s_log := [] |}
            _ "title" (replace_only "\s+" " ") _ _ _).
  - exists {| r_regexp := "\s+"; r_format := " " |}. reflexivity.
  - reflexivity.
  - vm_compute. reflexivity.
Defined.
